(** * GoCache: an in-process key/value store with per-entry expiry

    A shallow embedding of [main.go] (the current version, whose [Set] takes
    [maxItems] and an explicit expiry) and of the earlier variant of the same
    file (module [Part000], whose [Set] uses the cache's default expiry).

    The Go methods run against one shared [*Cache].  They are embedded as
    programs of a small state monad [M] over a [World] that holds the cache
    object, its [sync.RWMutex], a clock oracle standing for [time.Now()], the
    order in which [range] enumerates a map, and a history of the calls that
    matter for the order of events ([time.After] and [cleanup]).

    One goroutine is executed at a time.  A lock acquisition that cannot
    succeed in the current mutex state is the outcome [Blocked]: the caller
    waits, and when the lock is held by the caller itself it waits forever. *)

From stdpp Require Import base gmap strings list.
From Stdlib Require Import ZArith Lia.

Local Open Scope Z_scope.

(** ** Machine integers *)

(** Two's-complement wrap-around of a [w]-bit signed integer. *)
Definition wrap (w : Z) (x : Z) : Z :=
  (x + 2 ^ (w - 1)) mod 2 ^ w - 2 ^ (w - 1).

Definition int32 (x : Z) : Z := wrap 32 x.
Definition int64 (x : Z) : Z := wrap 64 x.

Definition in_int32 (x : Z) : Prop := - 2 ^ 31 <= x < 2 ^ 31.
Definition in_int64 (x : Z) : Prop := - 2 ^ 63 <= x < 2 ^ 63.

(** ** Data model *)

(** [type item struct { val string; expiry int64 }] *)
Record item : Type := Item { val : string; expiry : Z }.

(** The state of a [sync.RWMutex]: whether a writer holds it, and how many
    readers hold it. *)
Record RWMutex : Type := Mutex { writer : bool; readers : nat }.

(** [type Cache struct { mu; items; defaultExpiry; readOnly }].
    [defaultExpiry] is a [time.Duration] (int64 nanoseconds), [readOnly] an
    [int32] updated atomically. *)
Record Cache : Type := MkCache {
  mu : RWMutex;
  items : gmap string item;
  defaultExpiry : Z;
  readOnly : Z
}.

(** Calls recorded in the history of a run. *)
Inductive event : Type :=
| EvAfter (d : Z)      (* <-time.After(d) *)
| EvCleanup.           (* entry of c.cleanup() *)

(** The world a goroutine runs in.
    - [clock n] is the value of [time.Now().UnixNano()] at the [n]-th reading;
      [ticks] counts the readings made so far.
    - [range_order m] is the order in which [for k, v := range m] visits the
      entries of [m]; Go leaves it unspecified.
    - [history] lists the recorded calls, oldest first.
    - [heap] is the one [Cache] object all methods share. *)
Record World : Type := MkWorld {
  clock : nat → Z;
  range_order : gmap string item → list (string * item);
  ticks : nat;
  history : list event;
  heap : Cache
}.

(** What a program does from a world: return a value in a new world, block
    on a lock, die on a fatal runtime error, or (loops only) still be running
    when the fuel of the model is spent. *)
Inductive outcome (A : Type) : Type :=
| Ret (a : A) (w : World)
| Blocked (w : World)
| Fatal (w : World)
| Running (w : World).

Arguments Ret {A} a w.
Arguments Blocked {A} w.
Arguments Fatal {A} w.
Arguments Running {A} w.

Definition M (A : Type) : Type := World → outcome A.

#[global] Instance M_ret : MRet M := λ A a w, Ret a w.

#[global] Instance M_bind : MBind M := λ A B f m w,
  match m w with
  | Ret a w' => f a w'
  | Blocked w' => Blocked w'
  | Fatal w' => Fatal w'
  | Running w' => Running w'
  end.

(** Field updates of the shared object. *)
Definition with_heap (w : World) (c : Cache) : World :=
  MkWorld (clock w) (range_order w) (ticks w) (history w) c.

Definition with_mu (c : Cache) (m : RWMutex) : Cache :=
  MkCache m (items c) (defaultExpiry c) (readOnly c).

Definition with_items (c : Cache) (m : gmap string item) : Cache :=
  MkCache (mu c) m (defaultExpiry c) (readOnly c).

Definition with_readOnly (c : Cache) (r : Z) : Cache :=
  MkCache (mu c) (items c) (defaultExpiry c) r.

(** ** Runtime primitives *)

(** [time.Now().UnixNano()]: the next reading of the clock. *)
Definition time_Now : M Z := λ w,
  Ret (clock w (ticks w))
      (MkWorld (clock w) (range_order w) (S (ticks w)) (history w) (heap w)).

(** Entry in the history. *)
Definition record (e : event) : M unit := λ w,
  Ret tt (MkWorld (clock w) (range_order w) (ticks w) (history w ++ [e]) (heap w)).

(** [<-time.After(d)]: returns once the timer has fired. *)
Definition time_After (d : Z) : M unit := record (EvAfter d).

(** [mu.Lock()]: needs no writer and no reader. *)
Definition Lock : M unit := λ w,
  let m := mu (heap w) in
  if writer m || negb (Nat.eqb (readers m) 0) then Blocked w
  else Ret tt (with_heap w (with_mu (heap w) (Mutex true (readers m)))).

(** [mu.Unlock()]: a fatal error when the mutex is not write-locked. *)
Definition Unlock : M unit := λ w,
  let m := mu (heap w) in
  if writer m then Ret tt (with_heap w (with_mu (heap w) (Mutex false (readers m))))
  else Fatal w.

(** [mu.RLock()]: needs no writer. *)
Definition RLock : M unit := λ w,
  let m := mu (heap w) in
  if writer m then Blocked w
  else Ret tt (with_heap w (with_mu (heap w) (Mutex false (S (readers m))))).

(** [mu.RUnlock()]: a fatal error when no reader holds the mutex. *)
Definition RUnlock : M unit := λ w,
  let m := mu (heap w) in
  match readers m with
  | O => Fatal w
  | S n => Ret tt (with_heap w (with_mu (heap w) (Mutex (writer m) n)))
  end.

(** [atomic.LoadInt32(&c.readOnly)] *)
Definition atomic_LoadInt32_readOnly : M Z := λ w, Ret (readOnly (heap w)) w.

(** [atomic.AddInt32(&c.readOnly, delta)] *)
Definition atomic_AddInt32_readOnly (delta : Z) : M Z := λ w,
  let r := int32 (readOnly (heap w) + delta) in
  Ret r (with_heap w (with_readOnly (heap w) r)).

(** Reads and writes of [c.items] and [c.defaultExpiry]. *)
Definition load_items : M (gmap string item) := λ w, Ret (items (heap w)) w.

Definition store_items (m : gmap string item) : M unit := λ w,
  Ret tt (with_heap w (with_items (heap w) m)).

Definition load_defaultExpiry : M Z := λ w, Ret (defaultExpiry (heap w)) w.

(** The entries of [m] in the order [range] visits them. *)
Definition range (m : gmap string item) : M (list (string * item)) := λ w,
  Ret (range_order w m) w.

(** ** The cache: main.go *)

(** [NewCache(ed)] *)
Definition NewCache (ed : Z) : Cache :=
  MkCache (Mutex false 0) ∅ ed 0.

(** [NewCacheWithJanitor(ed, maxItems)] builds the same object; the
    [go c.janitor(maxItems)] it starts is the program [janitor] below. *)
Definition NewCacheWithJanitor (ed : Z) (maxItems : Z) : Cache :=
  MkCache (Mutex false 0) ∅ ed 0.

(** The scan loop of [cleanup]:
    [for k, item := range c.items { if time.Now().UnixNano() > item.expiry
    { keys = append(keys, k) } }] *)
Fixpoint cleanup_loop (l : list (string * item)) (keys : list string)
  : M (list string) :=
  match l with
  | [] => mret keys
  | (k, it) :: l' =>
      now ← time_Now;
      if now >? expiry it then cleanup_loop l' (keys ++ [k])
      else cleanup_loop l' keys
  end.

(** First phase of [cleanup], under the read lock. *)
Definition cleanup_scan : M (list string) :=
  RLock;;
  m ← load_items;
  l ← range m;
  keys ← cleanup_loop l [];
  RUnlock;;
  mret keys.

(** [for _, k := range keys { delete(c.items, k) }] *)
Fixpoint delete_keys (keys : list string) : M unit :=
  match keys with
  | [] => mret tt
  | k :: keys' =>
      m ← load_items;
      store_items (base.delete k m);;
      delete_keys keys'
  end.

(** Second phase of [cleanup], under the write lock ([defer c.mu.Unlock()]). *)
Definition cleanup_delete (keys : list string) : M unit :=
  Lock;;
  delete_keys keys;;
  Unlock.

(** [func (c *Cache) cleanup()].  The first line has no counterpart in the
    source: it enters the call in the history. *)
Definition cleanup : M unit :=
  record EvCleanup;;
  keys ← cleanup_scan;
  cleanup_delete keys.

(** [func (c *Cache) Set(k, v string, maxItems int, expiry time.Duration)] *)
Definition Set_ (k v : string) (maxItems : Z) (ttl : Z) : M unit :=
  ro ← atomic_LoadInt32_readOnly;
  if ro =? 1 then mret tt
  else
    Lock;;
    m ← load_items;
    (if Z.of_nat (size m) >=? maxItems then cleanup else mret tt);;
    now ← time_Now;
    m' ← load_items;
    store_items (<[k := Item v (int64 (now + ttl))]> m');;
    Unlock.

(** [func (c *Cache) delete(k string)] *)
Definition delete (k : string) : M unit :=
  Lock;;
  m ← load_items;
  store_items (base.delete k m);;
  Unlock.

(** [func (c *Cache) GetOrDelete(k string) (string, bool)] *)
Definition GetOrDelete (k : string) : M (string * bool) :=
  RLock;;
  m ← load_items;
  match m !! k with
  | None => RUnlock;; mret (""%string, false)
  | Some v =>
      now ← time_Now;
      if now >? expiry v then
        RUnlock;;
        delete k;;
        mret (""%string, false)
      else
        RUnlock;;
        mret (val v, true)
  end.

(** [func (c *Cache) Get(k string) (string, bool)], with its
    [defer c.mu.RUnlock()] run on each return. *)
Definition Get (k : string) : M (string * bool) :=
  RLock;;
  m ← load_items;
  match m !! k with
  | None => RUnlock;; mret (""%string, false)
  | Some v =>
      now ← time_Now;
      if now >? expiry v then RUnlock;; mret (""%string, false)
      else RUnlock;; mret (val v, true)
  end.

(** [func (c *Cache) SaveAndExit(k string)] *)
Definition SaveAndExit (k : string) : M unit :=
  atomic_AddInt32_readOnly 1;;
  mret tt.

(** [func (c *Cache) janitor(maxItems int)]: [for { <-time.After(
    c.defaultExpiry * 2); c.cleanup() }].  The loop has no exit, so the
    result type is empty; [fuel] bounds how many iterations the model runs
    before it reports [Running]. *)
Fixpoint janitor (fuel : nat) (maxItems : Z) : M Empty_set :=
  match fuel with
  | O => λ w, Running w
  | S fuel' =>
      d ← load_defaultExpiry;
      time_After (int64 (d * 2));;
      cleanup;;
      janitor fuel' maxItems
  end.

(** ** The earlier variant of the file *)

Module Part000.

(** [func (c *Cache) Set(k, v string)]: no capacity check, and the expiry is
    [time.Now().Add(time.Duration(c.defaultExpiry)).UnixNano()]. *)
Definition Set_ (k v : string) : M unit :=
  ro ← atomic_LoadInt32_readOnly;
  if ro =? 1 then mret tt
  else
    Lock;;
    now ← time_Now;
    d ← load_defaultExpiry;
    m ← load_items;
    store_items (<[k := Item v (int64 (now + d))]> m);;
    Unlock.

(** [NewCacheWithJanitor(ed)], which starts [go c.janitor()]. *)
Definition NewCacheWithJanitor (ed : Z) : Cache :=
  MkCache (Mutex false 0) ∅ ed 0.

(** [func (c *Cache) janitor()]: the same loop, without a parameter. *)
Fixpoint janitor (fuel : nat) : M Empty_set :=
  match fuel with
  | O => λ w, Running w
  | S fuel' =>
      d ← load_defaultExpiry;
      time_After (int64 (d * 2));;
      cleanup;;
      janitor fuel'
  end.

End Part000.

(** ** Vocabulary of the statements *)

(** Nobody holds the mutex. *)
Definition quiescent (w : World) : Prop := mu (heap w) = Mutex false 0.

(** No writer holds the mutex (readers may). *)
Definition no_writer (w : World) : Prop := writer (mu (heap w)) = false.

(** [range] visits every entry of a map exactly once. *)
Definition range_valid (w : World) : Prop :=
  ∀ m, range_order w m ≡ₚ map_to_list m.

(** The keys the scan loop appends when it visits [l] and its first clock
    reading is the [t]-th one. *)
Fixpoint collected (clk : nat → Z) (t : nat) (l : list (string * item))
  : list string :=
  match l with
  | [] => []
  | (k, it) :: l' =>
      (if clk t >? expiry it then [k] else []) ++ collected clk (S t) l'
  end.

(** A map after the deletion of a list of keys, one by one. *)
Definition delete_all (keys : list string) (m : gmap string item)
  : gmap string item :=
  foldl (λ acc k, base.delete k acc) m keys.

(** The world a quiescent world is in after one [cleanup]. *)
Definition swept (w : World) : World :=
  let l := range_order w (items (heap w)) in
  MkWorld (clock w) (range_order w) (ticks w + length l)%nat
          (history w ++ [EvCleanup])
          (with_items (heap w)
             (delete_all (collected (clock w) (ticks w) l) (items (heap w)))).

(** The world right after the janitor's [<-time.After(c.defaultExpiry * 2)]. *)
Definition waited (w : World) : World :=
  MkWorld (clock w) (range_order w) (ticks w)
          (history w ++ [EvAfter (int64 (defaultExpiry (heap w) * 2))])
          (heap w).

(** The world after [n] rounds of waiting and sweeping. *)
Fixpoint rounds (n : nat) (w : World) : World :=
  match n with
  | O => w
  | S n' => swept (waited (rounds n' w))
  end.

(** A sequential client of the cache: the public calls, one after another. *)
Inductive call : Type :=
| CallSet (k v : string) (maxItems ttl : Z)
| CallGet (k : string)
| CallGetOrDelete (k : string)
| CallSaveAndExit (k : string)
| CallCleanup.

Definition exec (c : call) : M unit :=
  match c with
  | CallSet k v maxItems ttl => Set_ k v maxItems ttl
  | CallGet k => Get k;; mret tt
  | CallGetOrDelete k => GetOrDelete k;; mret tt
  | CallSaveAndExit k => SaveAndExit k
  | CallCleanup => cleanup
  end.

Fixpoint run (cs : list call) : M unit :=
  match cs with
  | [] => mret tt
  | c :: cs' => exec c;; run cs'
  end.

Definition is_freeze (c : call) : bool :=
  match c with CallSaveAndExit _ => true | _ => false end.

(** How many calls of a client are [SaveAndExit]. *)
Fixpoint freezes (cs : list call) : nat :=
  match cs with
  | [] => 0
  | c :: cs' => ((if is_freeze c then 1 else 0) + freezes cs')%nat
  end.

(** A world around a freshly built cache: the clock stands at [now] and
    [range] follows [map_to_list]. *)
Definition fresh (now : Z) (ed : Z) : World :=
  MkWorld (λ _, now) map_to_list 0 [] (NewCache ed).

(** A world at time 100 whose cache holds one entry expired ("a"), one on
    its deadline ("b") and one live ("c"). *)
Definition stocked : World :=
  MkWorld (λ _, 100) map_to_list 0 []
    (MkCache (Mutex false 0)
       (<[ "a"%string := Item "1" 99]>
          (<[ "b"%string := Item "2" 100]>
             (<[ "c"%string := Item "3" 101]> ∅)))
       20 0).

(** A clock that reads 100 first and 150 from then on. *)
Definition clock_100_150 (n : nat) : Z :=
  match n with O => 100 | S _ => 150 end.

(** What every method but [SaveAndExit] leaves alone: the clock, the order
    of [range], the default expiry and the read-only counter. *)
Definition frame (w w' : World) : Prop :=
  clock w' = clock w ∧ range_order w' = range_order w ∧
  defaultExpiry (heap w') = defaultExpiry (heap w) ∧
  readOnly (heap w') = readOnly (heap w).

(** A program is stable for a relation on worlds when the world it stops in,
    whatever the outcome, is related to the world it started from. *)
Definition stable (R : relation World) {A} (m : M A) : Prop :=
  ∀ w, match m w with
       | Ret _ w' | Blocked w' | Fatal w' | Running w' => R w w'
       end.

(** * Properties *)

(** ** Machine integers *)

Lemma int64_in_range x : in_int64 x → int64 x = x.
Proof.
  unfold in_int64, int64, wrap. intros Hx.
  rewrite Z.mod_small; lia.
Qed.

Lemma int32_in_range x : in_int32 x → int32 x = x.
Proof.
  unfold in_int32, int32, wrap. intros Hx.
  rewrite Z.mod_small; lia.
Qed.

Lemma int32_bounds x : in_int32 (int32 x).
Proof.
  unfold in_int32, int32, wrap.
  pose proof (Z.mod_pos_bound (x + 2 ^ (32 - 1)) (2 ^ 32) ltac:(lia)). lia.
Qed.

Lemma int32_add_l x y : int32 (int32 x + y) = int32 (x + y).
Proof.
  unfold int32, wrap.
  replace ((x + 2 ^ (32 - 1)) mod 2 ^ 32 - 2 ^ (32 - 1) + y + 2 ^ (32 - 1))
    with ((x + 2 ^ (32 - 1)) mod 2 ^ 32 + y) by lia.
  rewrite Zplus_mod_idemp_l. f_equal. f_equal. lia.
Qed.

(** ** The monad *)

Lemma bind_Ret {A B} (m : M A) (f : A → M B) w a w' :
  m w = Ret a w' → (m ≫= f) w = f a w'.
Proof. unfold mbind, M_bind. by intros ->. Qed.

Lemma bind_inv {A B} (m : M A) (f : A → M B) w b w2 :
  (m ≫= f) w = Ret b w2 → ∃ a w1, m w = Ret a w1 ∧ f a w1 = Ret b w2.
Proof.
  unfold mbind, M_bind. destruct (m w) as [a w1| | |]; try discriminate.
  eauto.
Qed.

Section Stable.
Context (R : relation World) `{!PreOrder R}.

Lemma stable_ret {A} (a : A) : stable R (mret a).
Proof. intros w. simpl. reflexivity. Qed.

Lemma stable_bind {A B} (m : M A) (f : A → M B) :
  stable R m → (∀ a, stable R (f a)) → stable R (m ≫= f).
Proof.
  intros Hm Hf w. unfold mbind, M_bind.
  specialize (Hm w). destruct (m w) as [a w1|w1|w1|w1]; try done.
  specialize (Hf a w1).
  destruct (f a w1); by etrans.
Qed.

Lemma stable_Ret {A} (m : M A) w a w' : stable R m → m w = Ret a w' → R w w'.
Proof. intros Hm Hw. specialize (Hm w). by rewrite Hw in Hm. Qed.
End Stable.

#[global] Instance frame_preorder : PreOrder frame.
Proof.
  split.
  - by intros w.
  - intros w1 w2 w3 (?&?&?&?) (?&?&?&?). unfold frame. repeat split; congruence.
Qed.

Ltac prim_frame :=
  let w := fresh "w" in
  intros w; destruct w as [? ? ? ? [[wr rd] ? ? ?]];
  repeat (cbv beta iota delta
            [time_Now record time_After Lock Unlock RLock RUnlock
             atomic_LoadInt32_readOnly load_items store_items
             load_defaultExpiry range with_heap with_mu with_items];
          simpl);
  try destruct wr; try destruct rd; simpl; done.

Lemma frame_time_Now : stable frame time_Now.
Proof. prim_frame. Qed.
Lemma frame_record e : stable frame (record e).
Proof. prim_frame. Qed.
Lemma frame_Lock : stable frame Lock.
Proof. prim_frame. Qed.
Lemma frame_Unlock : stable frame Unlock.
Proof. prim_frame. Qed.
Lemma frame_RLock : stable frame RLock.
Proof. prim_frame. Qed.
Lemma frame_RUnlock : stable frame RUnlock.
Proof. prim_frame. Qed.
Lemma frame_load_flag : stable frame atomic_LoadInt32_readOnly.
Proof. prim_frame. Qed.
Lemma frame_load_items : stable frame load_items.
Proof. prim_frame. Qed.
Lemma frame_store_items m : stable frame (store_items m).
Proof. prim_frame. Qed.
Lemma frame_load_defaultExpiry : stable frame load_defaultExpiry.
Proof. prim_frame. Qed.
Lemma frame_range m : stable frame (range m).
Proof. prim_frame. Qed.

Create HintDb frame.
#[global] Hint Resolve frame_time_Now frame_record frame_Lock frame_Unlock
  frame_RLock frame_RUnlock frame_load_flag frame_load_items
  frame_store_items frame_load_defaultExpiry frame_range : frame.

(** Splits a program along its binds and branches, down to the primitives. *)
Ltac frame_steps :=
  repeat first
    [ apply (stable_bind frame); [| intros ?]
    | apply (stable_ret frame)
    | match goal with
      | |- stable _ (if ?b then _ else _) => destruct b
      | |- stable _ (match ?o with Some _ => _ | None => _ end) => destruct o
      end
    | solve [eauto with frame] ].

Lemma frame_cleanup_loop l keys : stable frame (cleanup_loop l keys).
Proof.
  revert keys. induction l as [|[k it] l IH]; intros keys; simpl.
  - apply (stable_ret frame).
  - frame_steps; apply IH.
Qed.

Lemma frame_delete_keys keys : stable frame (delete_keys keys).
Proof.
  induction keys as [|k keys IH]; simpl.
  - apply (stable_ret frame).
  - frame_steps; apply IH.
Qed.

#[global] Hint Resolve frame_cleanup_loop frame_delete_keys : frame.

Lemma frame_cleanup : stable frame cleanup.
Proof. unfold cleanup, cleanup_scan, cleanup_delete. frame_steps. Qed.

#[global] Hint Resolve frame_cleanup : frame.

Lemma frame_Set k v maxItems ttl : stable frame (Set_ k v maxItems ttl).
Proof. unfold Set_. frame_steps. Qed.

Lemma frame_delete k : stable frame (delete k).
Proof. unfold delete. frame_steps. Qed.

#[global] Hint Resolve frame_delete : frame.

Lemma frame_Get k : stable frame (Get k).
Proof. unfold Get. frame_steps. Qed.

Lemma frame_GetOrDelete k : stable frame (GetOrDelete k).
Proof. unfold GetOrDelete. frame_steps. Qed.

(** ** Running the methods *)

Arguments int32 : simpl never.
Arguments int64 : simpl never.

(** Opens a world into its fields and runs the primitives on it. *)
Ltac open_world w :=
  destruct w as [clk ord t hist [[wr rd] its ed ro]];
  unfold quiescent, no_writer in *; simpl in *; simplify_eq.

Ltac run_prims :=
  cbv beta iota delta
    [time_Now record time_After Lock Unlock RLock RUnlock
     atomic_LoadInt32_readOnly atomic_AddInt32_readOnly load_items
     store_items load_defaultExpiry range with_heap with_mu with_items
     with_readOnly mbind M_bind mret M_ret];
  simpl.

(** Closed goals: evaluate both sides. *)
Ltac evaluate := vm_compute; reflexivity.

Lemma Set_frozen k v maxItems ttl w :
  readOnly (heap w) = 1 → Set_ k v maxItems ttl w = Ret tt w.
Proof.
  intros Hro. unfold Set_. run_prims. by rewrite Hro.
Qed.

Lemma SaveAndExit_run k w :
  SaveAndExit k w =
  Ret tt (with_heap w (with_readOnly (heap w) (int32 (readOnly (heap w) + 1)))).
Proof. reflexivity. Qed.

Lemma exec_flag c w w' :
  exec c w = Ret tt w' →
  readOnly (heap w') =
  if is_freeze c then int32 (readOnly (heap w) + 1) else readOnly (heap w).
Proof.
  destruct c as [k v maxItems ttl|k|k|k|]; simpl; intros Hrun.
  - by destruct (stable_Ret frame _ _ _ _ (frame_Set k v maxItems ttl) Hrun)
      as (_&_&_&?).
  - apply bind_inv in Hrun as ([v b]&w1&Hget&[= <-]).
    by destruct (stable_Ret frame _ _ _ _ (frame_Get k) Hget) as (_&_&_&?).
  - apply bind_inv in Hrun as ([v b]&w1&Hget&[= <-]).
    by destruct (stable_Ret frame _ _ _ _ (frame_GetOrDelete k) Hget)
      as (_&_&_&?).
  - rewrite SaveAndExit_run in Hrun. by injection Hrun as <-.
  - by destruct (stable_Ret frame _ _ _ _ frame_cleanup Hrun) as (_&_&_&?).
Qed.

(** From a counter in range, a client's run leaves the counter at the
    wrapped sum of its start and of the number of [SaveAndExit] calls. *)
Lemma run_flag cs w w' :
  in_int32 (readOnly (heap w)) →
  run cs w = Ret tt w' →
  readOnly (heap w') = int32 (readOnly (heap w) + Z.of_nat (freezes cs)).
Proof.
  revert w. induction cs as [|c cs IH]; intros w Hrange Hrun.
  - injection Hrun as <-. simpl.
    rewrite Z.add_0_r. by rewrite int32_in_range.
  - simpl in Hrun. apply bind_inv in Hrun as ([]&w1&Hc&Hcs).
    pose proof (exec_flag _ _ _ Hc) as Hflag.
    simpl freezes. destruct (is_freeze c) eqn:Hfr.
    + rewrite (IH w1); [| rewrite Hflag; apply int32_bounds | done].
      rewrite Hflag, int32_add_l. f_equal. lia.
    + rewrite (IH w1); [| by rewrite Hflag | done].
      by rewrite Hflag.
Qed.

(** An unfrozen [Set] below capacity inserts the entry and releases the
    lock; it reads the clock once and does not sweep. *)
Lemma Set_below_capacity k v maxItems ttl w :
  quiescent w →
  readOnly (heap w) ≠ 1 →
  Z.of_nat (size (items (heap w))) < maxItems →
  Set_ k v maxItems ttl w =
  Ret tt (MkWorld (clock w) (range_order w) (S (ticks w)) (history w)
            (with_items (heap w)
               (<[k := Item v (int64 (clock w (ticks w) + ttl))]>
                  (items (heap w))))).
Proof.
  intros Hq Hro Hsize. open_world w. unfold Set_. run_prims.
  destruct (Z.eqb_spec ro 1) as [|_]; [done|]. run_prims.
  destruct (Z.geb_spec (Z.of_nat (size its)) maxItems) as [|_]; [lia|].
  run_prims. reflexivity.
Qed.

(** An unfrozen [Set] at or over capacity takes the write lock, enters
    [cleanup] and blocks there on the read lock of the same mutex. *)
Lemma Set_at_capacity k v maxItems ttl w :
  quiescent w →
  readOnly (heap w) ≠ 1 →
  maxItems <= Z.of_nat (size (items (heap w))) →
  Set_ k v maxItems ttl w =
  Blocked (MkWorld (clock w) (range_order w) (ticks w)
             (history w ++ [EvCleanup])
             (with_mu (heap w) (Mutex true 0))).
Proof.
  intros Hq Hro Hsize. open_world w. unfold Set_. run_prims.
  destruct (Z.eqb_spec ro 1) as [|_]; [done|]. run_prims.
  destruct (Z.geb_spec (Z.of_nat (size its)) maxItems) as [_|]; [|lia].
  unfold cleanup, cleanup_scan. run_prims. reflexivity.
Qed.

(** ** The sweep *)

Lemma cleanup_loop_run l keys w :
  cleanup_loop l keys w =
  Ret (keys ++ collected (clock w) (ticks w) l)
      (MkWorld (clock w) (range_order w) (ticks w + length l)%nat
         (history w) (heap w)).
Proof.
  revert keys w. induction l as [|[k it] l IH]; intros keys w.
  - destruct w. simpl. unfold mret, M_ret.
    by rewrite app_nil_r, Nat.add_0_r.
  - simpl. run_prims.
    destruct (clock w (ticks w) >? expiry it); rewrite IH; simpl;
      rewrite Nat.add_succ_r; [by rewrite <- app_assoc | done].
Qed.

Lemma delete_keys_run keys w :
  delete_keys keys w =
  Ret tt (with_heap w (with_items (heap w) (delete_all keys (items (heap w))))).
Proof.
  revert w. induction keys as [|k keys IH]; intros w.
  - by destruct w as [? ? ? ? []].
  - simpl. run_prims. by rewrite IH.
Qed.

Lemma cleanup_scan_run w :
  no_writer w →
  cleanup_scan w =
  Ret (collected (clock w) (ticks w) (range_order w (items (heap w))))
      (MkWorld (clock w) (range_order w)
         (ticks w + length (range_order w (items (heap w))))%nat
         (history w) (heap w)).
Proof.
  intros Hw. open_world w. unfold cleanup_scan. run_prims.
  rewrite cleanup_loop_run. reflexivity.
Qed.

Lemma cleanup_delete_run keys w :
  quiescent w →
  cleanup_delete keys w =
  Ret tt (with_heap w (with_items (heap w) (delete_all keys (items (heap w))))).
Proof.
  intros Hq. open_world w. unfold cleanup_delete. run_prims.
  rewrite delete_keys_run. reflexivity.
Qed.

Lemma cleanup_run w : quiescent w → cleanup w = Ret tt (swept w).
Proof.
  intros Hq. unfold cleanup.
  erewrite bind_Ret by reflexivity.
  erewrite bind_Ret by (apply cleanup_scan_run; by open_world w).
  rewrite cleanup_delete_run by (by open_world w).
  by open_world w.
Qed.

Lemma lookup_delete_all keys (m : gmap string item) k :
  delete_all keys m !! k = if decide (k ∈ keys) then None else m !! k.
Proof.
  unfold delete_all. revert m.
  induction keys as [|k' keys IH]; intros m; [done|].
  cbn [foldl]. rewrite IH.
  destruct (decide (k ∈ keys)) as [Hin|Hnin],
           (decide (k ∈ k' :: keys)) as [Hin'|Hnin']; try done.
  - set_solver.
  - apply elem_of_cons in Hin' as [->|?]; [apply lookup_delete_eq | done].
  - apply lookup_delete_ne. set_solver.
Qed.

Lemma delete_all_subseteq keys (m : gmap string item) : delete_all keys m ⊆ m.
Proof.
  apply map_subseteq_spec. intros k it. rewrite lookup_delete_all.
  by destruct (decide _).
Qed.

(** A key is collected exactly when some visit of the scan finds it with an
    expiry strictly below the clock reading of that visit. *)
Lemma elem_of_collected clk t l k :
  k ∈ collected clk t l ↔
  ∃ (i : nat) it, l !! i = Some (k, it) ∧ expiry it < clk (t + i)%nat.
Proof.
  revert t. induction l as [|[k' it'] l IH]; intros t; simpl.
  - split; [by intros ?%elem_of_nil | by intros (i & it & ? & _)].
  - rewrite elem_of_app, IH. split.
    + intros [Hhd | (i & it & Hi & Hlt)].
      * destruct (Z.gtb_spec (clk t) (expiry it')) as [Hgt|_];
          [| by apply elem_of_nil in Hhd].
        apply list_elem_of_singleton in Hhd as ->.
        exists 0%nat, it'. rewrite Nat.add_0_r. split; [done | lia].
      * exists (S i), it. rewrite Nat.add_succ_r. done.
    + intros (i & it & Hi & Hlt). destruct i as [|i]; simpl in Hi.
      * injection Hi as -> ->. left. rewrite Nat.add_0_r in Hlt.
        destruct (Z.gtb_spec (clk t) (expiry it)) as [_|Hle]; [| lia].
        by apply list_elem_of_singleton.
      * right. exists i, it. rewrite Nat.add_succ_r in Hlt. done.
Qed.

(** ** Lookups *)

Lemma Get_absent k w :
  no_writer w → items (heap w) !! k = None →
  Get k w = Ret (""%string, false) w.
Proof.
  intros Hw Hk. open_world w. unfold Get. run_prims. by rewrite Hk.
Qed.

Lemma Get_present k it w :
  no_writer w → items (heap w) !! k = Some it →
  Get k w =
  Ret (if clock w (ticks w) >? expiry it then (""%string, false)
       else (val it, true))
      (MkWorld (clock w) (range_order w) (S (ticks w)) (history w) (heap w)).
Proof.
  intros Hw Hk. open_world w. unfold Get. run_prims. rewrite Hk. run_prims.
  by destruct (clk t >? expiry it).
Qed.

Lemma GetOrDelete_absent k w :
  no_writer w → items (heap w) !! k = None →
  GetOrDelete k w = Ret (""%string, false) w.
Proof.
  intros Hw Hk. open_world w. unfold GetOrDelete. run_prims. by rewrite Hk.
Qed.

Lemma GetOrDelete_live k it w :
  no_writer w → items (heap w) !! k = Some it →
  clock w (ticks w) <= expiry it →
  GetOrDelete k w =
  Ret (val it, true)
      (MkWorld (clock w) (range_order w) (S (ticks w)) (history w) (heap w)).
Proof.
  intros Hw Hk Hle. open_world w. unfold GetOrDelete. run_prims.
  rewrite Hk. run_prims.
  by destruct (Z.gtb_spec (clk t) (expiry it)) as [|_]; [lia|].
Qed.

Lemma GetOrDelete_expired k it w :
  quiescent w → items (heap w) !! k = Some it →
  expiry it < clock w (ticks w) →
  GetOrDelete k w =
  Ret (""%string, false)
      (MkWorld (clock w) (range_order w) (S (ticks w)) (history w)
         (with_items (heap w) (base.delete k (items (heap w))))).
Proof.
  intros Hq Hk Hlt. open_world w. unfold GetOrDelete. run_prims.
  rewrite Hk. run_prims.
  by destruct (Z.gtb_spec (clk t) (expiry it)) as [_|]; [|lia].
Qed.

(** * The claims *)

(** C1 (freeze is meant to be one-way, whatever the number of calls).
    [SaveAndExit] adds 1 to the counter and [Set] tests it against 1, so a
    second [SaveAndExit] leaves the counter at 2 and writes are accepted
    again: on a fresh cache, after two [SaveAndExit] calls,
    [Set("a", "1", 10, 50)] at time 100 returns with the entry stored. *)
Theorem C1_second_freeze_reopens_writes :
  ∃ w', (SaveAndExit "x";; SaveAndExit "x";; Set_ "a" "1" 10 50)
          (fresh 100 20) = Ret tt w' ∧
        readOnly (heap w') = 2 ∧
        items (heap (fresh 100 20)) !! "a"%string = None ∧
        items (heap w') !! "a"%string = Some (Item "1" 150).
Proof. eexists. split; [evaluate|]. repeat split. Qed.

(** The counter after [n] calls of [SaveAndExit] on a fresh cache is [n]
    wrapped to 32 bits; only the values congruent to 1 keep [Set] out. *)
Lemma freezes_flag clk ord t hist ed cs w :
  run cs (MkWorld clk ord t hist (NewCache ed)) = Ret tt w →
  readOnly (heap w) = int32 (Z.of_nat (freezes cs)).
Proof.
  intros Hrun. apply run_flag in Hrun as ->; [done|].
  simpl. unfold in_int32. lia.
Qed.

(** After exactly two [SaveAndExit] calls the counter is 2, and a [Set]
    below capacity stores its entry, whatever else the client did. *)
Lemma two_freezes_reopen clk ord t hist ed cs w k v maxItems ttl :
  run cs (MkWorld clk ord t hist (NewCache ed)) = Ret tt w →
  freezes cs = 2%nat →
  quiescent w →
  Z.of_nat (size (items (heap w))) < maxItems →
  ∃ w', Set_ k v maxItems ttl w = Ret tt w' ∧
        items (heap w') !! k =
          Some (Item v (int64 (clock w (ticks w) + ttl))).
Proof.
  intros Hrun Htwo Hq Hsize.
  rewrite (Set_below_capacity _ _ _ _ _ Hq); [| | done].
  - eexists. split; [reflexivity|]. simpl. apply lookup_insert_eq.
  - rewrite (freezes_flag _ _ _ _ _ _ _ Hrun), Htwo. by compute.
Qed.

(** C6 (a [Set] after exactly one freeze is a silent no-op).  In any world
    reached from a fresh cache by a client that called [SaveAndExit] exactly
    once, every [Set] returns normally and leaves the world as it was. *)
Theorem C6_set_after_one_freeze_is_noop
    clk ord t hist ed (cs : list call) (w : World) k v maxItems ttl :
  run cs (MkWorld clk ord t hist (NewCache ed)) = Ret tt w →
  freezes cs = 1%nat →
  Set_ k v maxItems ttl w = Ret tt w.
Proof.
  intros Hrun Hone. apply Set_frozen.
  by rewrite (freezes_flag _ _ _ _ _ _ _ Hrun), Hone.
Qed.

Lemma C6_witness :
  ∃ w, run [CallSet "a" "1" 10 50; CallSaveAndExit "x"; CallGet "a"]
         (fresh 100 20) = Ret tt w ∧
       freezes [CallSet "a" "1" 10 50; CallSaveAndExit "x"; CallGet "a"]
       = 1%nat ∧
       Set_ "b" "2" 10 50 w = Ret tt w.
Proof.
  eexists. split; [evaluate|]. split; [reflexivity|].
  apply (C6_set_after_one_freeze_is_noop (λ _, 100) map_to_list 0%nat [] 20
           [CallSet "a" "1" 10 50; CallSaveAndExit "x"; CallGet "a"]);
    evaluate.
Defined.

(** C10 ([SaveAndExit] never reads its argument).  Two calls that differ
    only in the argument give the same outcome: the counter incremented and
    nothing else touched. *)
Theorem C10_SaveAndExit_ignores_argument (k1 k2 : string) (w : World) :
  SaveAndExit k1 w = SaveAndExit k2 w ∧
  SaveAndExit k1 w =
  Ret tt (with_heap w (with_readOnly (heap w) (int32 (readOnly (heap w) + 1)))).
Proof. split; reflexivity. Qed.

(** C4 ([Set] at capacity is meant to sweep and then insert).  [Set] calls
    [cleanup] while it holds the write lock, and [cleanup] starts by taking
    the read lock of the same mutex: with [maxItems = 1], a second [Set] on a
    cache that holds one entry blocks inside [cleanup] with the write lock
    held, and its entry is not stored. *)
Theorem C4_set_at_capacity_blocks :
  ∃ w', (Set_ "a" "1" 1 900;; Set_ "b" "2" 1 50) (fresh 100 20) = Blocked w' ∧
        mu (heap w') = Mutex true 0 ∧
        history w' = [EvCleanup] ∧
        items (heap w') !! "a"%string = Some (Item "1" 1000) ∧
        items (heap w') !! "b"%string = None.
Proof. eexists. split; [evaluate|]. repeat split. Qed.

(** C7 (the two-argument [Set] of the earlier variant uses the default
    expiry).  On an unfrozen cache whose mutex is free, [Set(k, v)] returns
    with the entry of [k] replaced by the value [v] and the expiry
    [now + defaultExpiry], [now] being the clock reading of the call, as long
    as that sum is an int64 number of nanoseconds; the other keys, the
    default expiry and the counter stay as they were, and the mutex is free
    again. *)
Theorem C7_default_ttl_set (w : World) (k v : string) :
  quiescent w →
  readOnly (heap w) ≠ 1 →
  in_int64 (clock w (ticks w) + defaultExpiry (heap w)) →
  ∃ w', Part000.Set_ k v w = Ret tt w' ∧
        items (heap w') =
          <[k := Item v (clock w (ticks w) + defaultExpiry (heap w))]>
            (items (heap w)) ∧
        quiescent w' ∧
        defaultExpiry (heap w') = defaultExpiry (heap w) ∧
        readOnly (heap w') = readOnly (heap w).
Proof.
  intros Hq Hro Hrange. open_world w. unfold Part000.Set_. run_prims.
  destruct (Z.eqb_spec ro 1) as [|_]; [done|]. run_prims.
  eexists. split; [reflexivity|]. simpl.
  by rewrite (int64_in_range _ Hrange).
Qed.

Lemma C7_witness :
  ∃ w', Part000.Set_ "a" "1" (fresh 100 20) = Ret tt w' ∧
        items (heap w') = <[ "a"%string := Item "1" (100 + 20)]> ∅ ∧
        quiescent w' ∧
        defaultExpiry (heap w') = 20 ∧
        readOnly (heap w') = 0.
Proof.
  apply (C7_default_ttl_set (fresh 100 20) "a" "1");
    [reflexivity | discriminate | by compute].
Defined.

(** C5 ([GetOrDelete] reclaims an expired entry, [Get] does not).  When the
    entry of [k] is present with an expiry below the clock reading of the
    call, [GetOrDelete(k)] returns [("", false)] in a world where [k] is gone
    and every other key is as before, while [Get(k)] returns [("", false)]
    and leaves the whole cache object, the expired entry included, as it
    was. *)
Theorem C5_eager_vs_lazy (w : World) (k : string) (it : item) :
  quiescent w →
  items (heap w) !! k = Some it →
  expiry it < clock w (ticks w) →
  ∃ w1 w2,
    GetOrDelete k w = Ret (""%string, false) w1 ∧
    items (heap w1) !! k = None ∧
    (∀ k', k' ≠ k → items (heap w1) !! k' = items (heap w) !! k') ∧
    Get k w = Ret (""%string, false) w2 ∧
    heap w2 = heap w ∧
    items (heap w2) !! k = Some it.
Proof.
  intros Hq Hk Hlt.
  assert (no_writer w) as Hw by (unfold no_writer; by rewrite Hq).
  rewrite (GetOrDelete_expired _ _ _ Hq Hk Hlt), (Get_present _ _ _ Hw Hk).
  destruct (Z.gtb_spec (clock w (ticks w)) (expiry it)) as [_|]; [|lia].
  do 2 eexists. split; [reflexivity|]. simpl.
  split; [apply lookup_delete_eq|].
  split; [intros k' Hne; by apply lookup_delete_ne|].
  done.
Qed.

Lemma C5_witness :
  let w := MkWorld (λ _, 100) map_to_list 0 []
             (MkCache (Mutex false 0)
                (<[ "a"%string := Item "1" 99]> (<[ "b"%string := Item "2" 500]> ∅))
                20 0) in
  ∃ w1 w2,
    GetOrDelete "a" w = Ret (""%string, false) w1 ∧
    items (heap w1) !! "a"%string = None ∧
    (∀ k', k' ≠ "a"%string → items (heap w1) !! k' = items (heap w) !! k') ∧
    Get "a" w = Ret (""%string, false) w2 ∧
    heap w2 = heap w ∧
    items (heap w2) !! "a"%string = Some (Item "1" 99).
Proof.
  intros w. apply (C5_eager_vs_lazy w "a" (Item "1" 99));
    [reflexivity | evaluate | by compute].
Defined.

(** C9 (a miss carries the empty string).  Whatever the state of the mutex,
    a [Get(k)] or [GetOrDelete(k)] that returns [found = false] returns the
    empty string with it.  On a cache whose mutex is free both calls do
    return, and each reports [found = false] exactly when the key is absent
    or its entry has an expiry below the clock reading of the call. *)
Theorem C9_miss_has_empty_value (w : World) (k : string) :
  (∀ v w', Get k w = Ret (v, false) w' → v = ""%string) ∧
  (∀ v w', GetOrDelete k w = Ret (v, false) w' → v = ""%string) ∧
  (quiescent w →
   ∃ v b w1 v' w2,
     Get k w = Ret (v, b) w1 ∧
     GetOrDelete k w = Ret (v', b) w2 ∧
     (b = false ↔
      items (heap w) !! k = None ∨
      ∃ it, items (heap w) !! k = Some it ∧ expiry it < clock w (ticks w))).
Proof.
  split; [|split].
  - intros v w'. open_world w. unfold Get. run_prims.
    destruct wr; [discriminate|]. run_prims.
    destruct (its !! k) as [it|]; run_prims.
    + destruct (clk t >? expiry it); run_prims; by intros [= <-].
    + by intros [= <-].
  - intros v w'. open_world w. unfold GetOrDelete. run_prims.
    destruct wr; [discriminate|]. run_prims.
    destruct (its !! k) as [it|]; run_prims.
    + destruct (clk t >? expiry it); run_prims; [| by intros [= <-]].
      unfold delete. run_prims. destruct rd; run_prims; [| discriminate].
      by intros [= <-].
    + by intros [= <-].
  - intros Hq.
    assert (no_writer w) as Hw by (unfold no_writer; by rewrite Hq).
    destruct (items (heap w) !! k) as [it|] eqn:Hk.
    + rewrite (Get_present _ _ _ Hw Hk).
      destruct (Z.gtb_spec (clock w (ticks w)) (expiry it)) as [Hgt|Hle].
      * rewrite (GetOrDelete_expired _ _ _ Hq Hk) by lia.
        do 5 eexists. repeat split; try done.
        intros _. right. exists it. split; [done | lia].
      * rewrite (GetOrDelete_live _ _ _ Hw Hk Hle).
        do 5 eexists. repeat split; try done.
        intros [|(it' & [= <-] & ?)]; [done | lia].
    + rewrite (Get_absent _ _ Hw Hk), (GetOrDelete_absent _ _ Hw Hk).
      do 5 eexists. repeat split; try done. by left.
Qed.

Lemma C9_witness :
  let w := MkWorld (λ _, 100) map_to_list 0 []
             (MkCache (Mutex false 0) (<[ "a"%string := Item "1" 99]> ∅) 20 0) in
  quiescent w ∧
  ∃ v b w1 v' w2,
    Get "a" w = Ret (v, b) w1 ∧
    GetOrDelete "a" w = Ret (v', b) w2 ∧
    (b = false ↔
     items (heap w) !! "a"%string = None ∨
     ∃ it, items (heap w) !! "a"%string = Some it ∧
           expiry it < clock w (ticks w)).
Proof.
  intros w. split; [reflexivity|].
  apply (proj2 (proj2 (C9_miss_has_empty_value w "a"))). reflexivity.
Defined.

(** ** Time to live *)

(** C2, counterexample: it is not so that every [Get] whose clock reading
    is at or after [now0 + ttl] reports [found = false].
    [Set("a", "1", 10, 50)] at time 100 stores the expiry 150; a [Get("a")]
    at time 150, which is [now0 + ttl], still returns [("1", true)], because
    the test is [now > expiry]. *)
Lemma C2_get_at_deadline_still_found :
  ¬ (∀ (w w1 w2 : World) (k v : string) (maxItems ttl : Z)
       (r : string * bool),
       quiescent w →
       Set_ k v maxItems ttl w = Ret tt w1 →
       clock w (ticks w) + ttl <= clock w1 (ticks w1) →
       Get k w1 = Ret r w2 →
       r.2 = false).
Proof.
  intros Hclaim.
  pose (w := MkWorld clock_100_150 map_to_list 0 [] (NewCache 20)).
  pose (w1 := MkWorld clock_100_150 map_to_list 1 []
                (MkCache (Mutex false 0) (<[ "a"%string := Item "1" 150]> ∅) 20 0)).
  pose (w2 := MkWorld clock_100_150 map_to_list 2 []
                (MkCache (Mutex false 0) (<[ "a"%string := Item "1" 150]> ∅) 20 0)).
  specialize (Hclaim w w1 w2 "a"%string "1"%string 10 50 ("1"%string, true)).
  discriminate Hclaim; [reflexivity | evaluate | by compute | evaluate].
Qed.

(** C2 (time to live), amended at the boundary.  An unfrozen [Set] below
    capacity at time [now0], with [now0 + ttl] an int64 number of
    nanoseconds, returns; and in every later world where the entry of [k] is
    still the one it stored, swept or not, [Get(k)] returns the stored value
    with [found = true] when its clock reading is at or before [now0 + ttl],
    and [("", false)] when it is after, the cache object being left as it
    was in both cases. *)
Theorem C2_ttl_correctness (w : World) (k v : string) (maxItems ttl : Z) :
  quiescent w →
  readOnly (heap w) ≠ 1 →
  Z.of_nat (size (items (heap w))) < maxItems →
  in_int64 (clock w (ticks w) + ttl) →
  ∃ w1,
    Set_ k v maxItems ttl w = Ret tt w1 ∧
    items (heap w1) !! k = Some (Item v (clock w (ticks w) + ttl)) ∧
    ∀ w2,
      no_writer w2 →
      items (heap w2) !! k = items (heap w1) !! k →
      ∃ w3,
        heap w3 = heap w2 ∧
        (clock w2 (ticks w2) <= clock w (ticks w) + ttl →
         Get k w2 = Ret (v, true) w3) ∧
        (clock w (ticks w) + ttl < clock w2 (ticks w2) →
         Get k w2 = Ret (""%string, false) w3).
Proof.
  intros Hq Hro Hsize Hrange.
  rewrite (Set_below_capacity _ _ _ _ _ Hq Hro Hsize).
  rewrite (int64_in_range _ Hrange).
  eexists. split; [reflexivity|]. simpl.
  split; [apply lookup_insert_eq|].
  intros w2 Hw2 Hk. rewrite lookup_insert_eq in Hk.
  rewrite (Get_present _ _ _ Hw2 Hk). simpl.
  exists (MkWorld (clock w2) (range_order w2) (S (ticks w2)) (history w2)
            (heap w2)).
  split; [reflexivity|].
  split; intros Hcmp;
    destruct (Z.gtb_spec (clock w2 (ticks w2)) (clock w (ticks w) + ttl));
    (lia || reflexivity).
Qed.

Lemma C2_witness :
  let w := MkWorld clock_100_150 map_to_list 0 [] (NewCache 20) in
  ∃ w1,
    Set_ "a" "1" 10 50 w = Ret tt w1 ∧
    items (heap w1) !! "a"%string = Some (Item "1" (100 + 50)) ∧
    ∀ w2,
      no_writer w2 →
      items (heap w2) !! "a"%string = items (heap w1) !! "a"%string →
      ∃ w3,
        heap w3 = heap w2 ∧
        (clock w2 (ticks w2) <= 100 + 50 →
         Get "a" w2 = Ret ("1"%string, true) w3) ∧
        (100 + 50 < clock w2 (ticks w2) →
         Get "a" w2 = Ret (""%string, false) w3).
Proof.
  intros w. apply (C2_ttl_correctness w "a" "1" 10 50);
    [reflexivity | discriminate | by compute | by compute].
Defined.

(** ** Sweep soundness and completeness *)

Lemma range_elem w (m : gmap string item) k it :
  range_valid w → (k, it) ∈ range_order w m ↔ m !! k = Some it.
Proof. intros Hr. by rewrite (Hr m), elem_of_map_to_list. Qed.

Lemma range_length w (m : gmap string item) :
  range_valid w → length (range_order w m) = size m.
Proof. intros Hr. by rewrite (Hr m), length_map_to_list. Qed.

(** What the scan collects, for clock readings between [lo] and [hi]. *)
Lemma collected_bounds w (lo hi : Z) k it :
  range_valid w →
  (∀ i, (i < size (items (heap w)))%nat →
        lo <= clock w (ticks w + i)%nat <= hi) →
  items (heap w) !! k = Some it →
  let keys := collected (clock w) (ticks w)
                (range_order w (items (heap w))) in
  (expiry it < lo → k ∈ keys) ∧ (hi <= expiry it → k ∉ keys).
Proof.
  intros Hr Hclk Hk keys. subst keys. split.
  - intros Hlt. apply elem_of_collected.
    apply (range_elem w _ _ _ Hr) in Hk.
    apply list_elem_of_lookup_1 in Hk as [i Hi].
    exists i, it. split; [done|].
    pose proof (lookup_lt_Some _ _ _ Hi) as Hlen.
    rewrite (range_length w _ Hr) in Hlen.
    specialize (Hclk i Hlen). lia.
  - intros Hge (i & it' & Hi & Hlt)%elem_of_collected.
    pose proof (lookup_lt_Some _ _ _ Hi) as Hlen.
    rewrite (range_length w _ Hr) in Hlen.
    apply list_elem_of_lookup_2, (range_elem w _ _ _ Hr) in Hi.
    assert (it' = it) as -> by congruence.
    specialize (Hclk i Hlen). lia.
Qed.

Lemma collected_present w k :
  range_valid w →
  k ∈ collected (clock w) (ticks w) (range_order w (items (heap w))) →
  is_Some (items (heap w) !! k).
Proof.
  intros Hr (i & it & Hi & _)%elem_of_collected.
  apply list_elem_of_lookup_2, (range_elem w _ _ _ Hr) in Hi. by exists it.
Qed.

(** C3, counterexample.  First, it is not so that a sweep removes every
    entry whose expiry is at or below the clock reading: an entry with
    expiry 100 survives a sweep at time 100, because the test is
    [now > expiry].  Second, an entry stored after the scan can be deleted:
    the scan at time 100 collects the key "a" (expiry 50); a [Set] of "a"
    with a fresh expiry of 1000 then runs while the mutex is free between
    the two phases; the delete phase removes it. *)
Lemma C3_sweep_boundary_and_race :
  ¬ (∀ (w w' : World) (k : string) (it : item),
       quiescent w → range_valid w →
       items (heap w) !! k = Some it →
       expiry it <= clock w (ticks w) →
       cleanup w = Ret tt w' →
       items (heap w') !! k = None) ∧
  (let w := MkWorld (λ _, 100) map_to_list 0 []
              (MkCache (Mutex false 0) (<[ "a"%string := Item "1" 50]> ∅) 20 0) in
   ∃ keys w1 w2 w3,
     (record EvCleanup;; cleanup_scan) w = Ret keys w1 ∧
     Set_ "a" "2" 10 900 w1 = Ret tt w2 ∧
     items (heap w2) !! "a"%string = Some (Item "2" 1000) ∧
     cleanup_delete keys w2 = Ret tt w3 ∧
     items (heap w3) !! "a"%string = None).
Proof.
  split.
  - intros Hclaim.
    pose (c := MkCache (Mutex false 0) (<[ "a"%string := Item "1" 100]> ∅) 20 0).
    specialize (Hclaim (MkWorld (λ _, 100) map_to_list 0 [] c)
                       (MkWorld (λ _, 100) map_to_list 1 [EvCleanup] c)
                       "a"%string (Item "1" 100)).
    discriminate Hclaim;
      [reflexivity | by intros m | evaluate | by compute | evaluate].
  - intros w. do 4 eexists.
    split; [evaluate|]. split; [evaluate|]. split; [evaluate|].
    split; evaluate.
Qed.

(** C3 (sweep soundness and completeness), amended.  Let the clock readings
    of the scan lie between [lo] and [hi] (one reading per visited entry;
    [lo = hi = now] for a clock that stands still).  On a cache whose mutex
    is free, the scan returns with the cache untouched and collects only keys
    of the map, among them every key whose expiry is below [lo] and none
    whose expiry is at least [hi]; the delete phase, in whatever world it
    starts, removes exactly the collected keys and leaves every other key,
    stored before or after the scan, as it finds it; and [cleanup] as a whole
    removes every entry whose expiry is below [lo], keeps every entry whose
    expiry is at least [hi], and adds none. *)
Theorem C3_sweep_removes_exactly_expired (w : World) (lo hi : Z) :
  quiescent w →
  range_valid w →
  (∀ i, (i < size (items (heap w)))%nat →
        lo <= clock w (ticks w + i)%nat <= hi) →
  ∃ keys w1 w',
    cleanup_scan w = Ret keys w1 ∧
    heap w1 = heap w ∧
    (∀ k, k ∈ keys → is_Some (items (heap w) !! k)) ∧
    (∀ k it, items (heap w) !! k = Some it →
             (expiry it < lo → k ∈ keys) ∧ (hi <= expiry it → k ∉ keys)) ∧
    (∀ w2, quiescent w2 →
           ∃ w3, cleanup_delete keys w2 = Ret tt w3 ∧
                 ∀ k, items (heap w3) !! k =
                      if decide (k ∈ keys) then None
                      else items (heap w2) !! k) ∧
    cleanup w = Ret tt w' ∧
    quiescent w' ∧
    items (heap w') ⊆ items (heap w) ∧
    (∀ k it, items (heap w) !! k = Some it →
             (expiry it < lo → items (heap w') !! k = None) ∧
             (hi <= expiry it → items (heap w') !! k = Some it)).
Proof.
  intros Hq Hr Hclk.
  assert (no_writer w) as Hw by (unfold no_writer; by rewrite Hq).
  rewrite (cleanup_scan_run _ Hw), (cleanup_run _ Hq).
  do 3 eexists. split; [reflexivity|]. simpl.
  split; [done|].
  split; [intros k; by apply collected_present|].
  split; [intros k it; by apply collected_bounds|].
  split.
  { intros w2 Hq2. rewrite (cleanup_delete_run _ _ Hq2).
    eexists. split; [reflexivity|]. intros k. apply lookup_delete_all. }
  split; [reflexivity|].
  split; [by open_world w|].
  split; [unfold swept; simpl; apply delete_all_subseteq|].
  intros k it Hk. unfold swept. simpl. rewrite lookup_delete_all.
  destruct (collected_bounds w lo hi k it Hr Hclk Hk) as [Hin Hout].
  split; intros Hcmp.
  - by rewrite decide_True by auto.
  - by rewrite decide_False by auto.
Qed.

Lemma C3_witness :
  let w := MkWorld (λ _, 100) map_to_list 0 []
             (MkCache (Mutex false 0)
                (<[ "a"%string := Item "1" 99]>
                   (<[ "b"%string := Item "2" 100]>
                      (<[ "c"%string := Item "3" 101]> ∅)))
                20 0) in
  ∃ keys w1 w',
    cleanup_scan w = Ret keys w1 ∧
    heap w1 = heap w ∧
    (∀ k, k ∈ keys → is_Some (items (heap w) !! k)) ∧
    (∀ k it, items (heap w) !! k = Some it →
             (expiry it < 100 → k ∈ keys) ∧ (100 <= expiry it → k ∉ keys)) ∧
    (∀ w2, quiescent w2 →
           ∃ w3, cleanup_delete keys w2 = Ret tt w3 ∧
                 ∀ k, items (heap w3) !! k =
                      if decide (k ∈ keys) then None
                      else items (heap w2) !! k) ∧
    cleanup w = Ret tt w' ∧
    quiescent w' ∧
    items (heap w') ⊆ items (heap w) ∧
    (∀ k it, items (heap w) !! k = Some it →
             (expiry it < 100 → items (heap w') !! k = None) ∧
             (100 <= expiry it → items (heap w') !! k = Some it)).
Proof.
  intros w. apply (C3_sweep_removes_exactly_expired w 100 100).
  - reflexivity.
  - intros m. reflexivity.
  - intros i _. simpl. lia.
Defined.

(** ** The janitor *)

Lemma swept_quiescent w : quiescent w → quiescent (swept w).
Proof. intros Hq. by open_world w. Qed.

Lemma rounds_shift n w :
  rounds n (swept (waited w)) = swept (waited (rounds n w)).
Proof. induction n as [|n IH]; [done|]. simpl. by rewrite IH. Qed.

(** What [n] rounds keep and what they add to the history. *)
Lemma rounds_facts n w :
  quiescent w →
  quiescent (rounds n w) ∧
  defaultExpiry (heap (rounds n w)) = defaultExpiry (heap w) ∧
  readOnly (heap (rounds n w)) = readOnly (heap w) ∧
  clock (rounds n w) = clock w ∧
  range_order (rounds n w) = range_order w ∧
  items (heap (rounds n w)) ⊆ items (heap w) ∧
  history (rounds n w) =
    history w ++
    concat (replicate n [EvAfter (int64 (defaultExpiry (heap w) * 2));
                         EvCleanup]).
Proof.
  intros Hq. induction n as [|n (Hqn & Hd & Hro & Hclk & Hord & Hsub & Hhist)].
  - simpl. by rewrite app_nil_r.
  - cbn [rounds]. rewrite replicate_S_end, concat_app.
    split; [by apply swept_quiescent|]. simpl.
    split; [done|]. split; [done|]. split; [done|]. split; [done|].
    split; [etrans; [apply delete_all_subseteq | done]|].
    rewrite Hhist, Hd. by rewrite <- !app_assoc.
Qed.

(** One pass through the body of the loop. *)
Lemma janitor_round w :
  quiescent w →
  (d ← load_defaultExpiry; time_After (int64 (d * 2));; cleanup) w =
  Ret tt (swept (waited w)).
Proof.
  intros Hq. erewrite bind_Ret by reflexivity.
  erewrite bind_Ret by reflexivity.
  by apply (cleanup_run (waited w)).
Qed.

Lemma janitor_run n maxItems w :
  quiescent w → janitor n maxItems w = Running (rounds n w).
Proof.
  revert w. induction n as [|n IH]; intros w Hq; [done|].
  cbn [janitor]. erewrite bind_Ret by reflexivity.
  erewrite bind_Ret by reflexivity.
  erewrite bind_Ret by (by apply (cleanup_run (waited w))).
  rewrite IH by (by apply swept_quiescent).
  by rewrite rounds_shift.
Qed.

(** C8 (the janitor waits [2 × defaultExpiry], sweeps, and goes on for
    ever).  Started on a cache whose mutex is free, the loop is still
    running after any number [n] of iterations: it has neither returned nor
    blocked nor died, and the world it is in is exactly the world [n] rounds
    of waiting and sweeping lead to.  Each round is one pass through the
    body of the loop and nothing else: from the world after [i] rounds, a
    wait of [c.defaultExpiry * 2] followed by [cleanup] on the cache returns
    in the world after [i + 1] rounds, which is the world of the wait with
    the map swept as [cleanup] sweeps it.  The history by then is [n] times
    that wait followed by a [cleanup]; no entry has been added to the map,
    the default expiry and the read-only counter are as they were, the mutex
    is free; and the wait is [2 × defaultExpiry] whenever that is an int64. *)
Theorem C8_janitor_waits_then_sweeps_forever
    (n : nat) (maxItems : Z) (w : World) :
  quiescent w →
  janitor n maxItems w = Running (rounds n w) ∧
  (∀ i, (d ← load_defaultExpiry; time_After (int64 (d * 2));; cleanup)
          (rounds i w) = Ret tt (rounds (S i) w) ∧
        cleanup (waited (rounds i w)) = Ret tt (rounds (S i) w) ∧
        heap (rounds (S i) w) =
          with_items (heap (rounds i w))
            (delete_all
               (collected (clock w) (ticks (rounds i w))
                  (range_order w (items (heap (rounds i w)))))
               (items (heap (rounds i w))))) ∧
  history (rounds n w) =
    history w ++
    concat (replicate n [EvAfter (int64 (defaultExpiry (heap w) * 2));
                         EvCleanup]) ∧
  (in_int64 (defaultExpiry (heap w) * 2) →
   int64 (defaultExpiry (heap w) * 2) = 2 * defaultExpiry (heap w)) ∧
  items (heap (rounds n w)) ⊆ items (heap w) ∧
  quiescent (rounds n w) ∧
  defaultExpiry (heap (rounds n w)) = defaultExpiry (heap w) ∧
  readOnly (heap (rounds n w)) = readOnly (heap w).
Proof.
  intros Hq.
  destruct (rounds_facts n w Hq) as (Hqn & Hd & Hro & _ & _ & Hsub & Hhist).
  split; [by apply janitor_run|].
  split.
  { intros i.
    destruct (rounds_facts i w Hq) as (Hqi & _ & _ & Hclk & Hord & _ & _).
    split; [by apply janitor_round|].
    split; [by apply (cleanup_run (waited (rounds i w)))|].
    cbn [rounds]. unfold swept. simpl. by rewrite Hclk, Hord. }
  split; [done|].
  split; [intros Hrange; rewrite (int64_in_range _ Hrange); lia|].
  done.
Qed.

Lemma C8_witness :
  quiescent stocked ∧
  (janitor 2 10000 stocked = Running (rounds 2 stocked) ∧
   (∀ i, (d ← load_defaultExpiry; time_After (int64 (d * 2));; cleanup)
           (rounds i stocked) = Ret tt (rounds (S i) stocked) ∧
         cleanup (waited (rounds i stocked)) = Ret tt (rounds (S i) stocked) ∧
         heap (rounds (S i) stocked) =
           with_items (heap (rounds i stocked))
             (delete_all
                (collected (clock stocked) (ticks (rounds i stocked))
                   (range_order stocked (items (heap (rounds i stocked)))))
                (items (heap (rounds i stocked))))) ∧
   history (rounds 2 stocked) =
     history stocked ++
     concat (replicate 2 [EvAfter (int64 (defaultExpiry (heap stocked) * 2));
                          EvCleanup]) ∧
   (in_int64 (defaultExpiry (heap stocked) * 2) →
    int64 (defaultExpiry (heap stocked) * 2) =
    2 * defaultExpiry (heap stocked)) ∧
   items (heap (rounds 2 stocked)) ⊆ items (heap stocked) ∧
   quiescent (rounds 2 stocked) ∧
   defaultExpiry (heap (rounds 2 stocked)) = defaultExpiry (heap stocked) ∧
   readOnly (heap (rounds 2 stocked)) = readOnly (heap stocked)) ∧
  items (heap (rounds 2 stocked)) !! "a"%string = None ∧
  items (heap (rounds 2 stocked)) !! "b"%string = Some (Item "2" 100) ∧
  items (heap (rounds 2 stocked)) !! "c"%string = Some (Item "3" 101) ∧
  history (rounds 2 stocked) =
    [EvAfter 40; EvCleanup; EvAfter 40; EvCleanup].
Proof.
  split; [reflexivity|].
  split; [apply (C8_janitor_waits_then_sweeps_forever 2 10000 stocked);
          reflexivity|].
  repeat split; evaluate.
Defined.

(** * Further properties of the code *)

(** ** Insertion and deletion *)

Lemma delete_run k w :
  quiescent w →
  delete k w =
  Ret tt (with_heap w (with_items (heap w) (base.delete k (items (heap w))))).
Proof. intros Hq. open_world w. reflexivity. Qed.

(** X1 ([Set] replaces, it does not merge; other keys are out of its
    reach).  An unfrozen [Set] below capacity returns with the mutex free;
    the entry of [k] is the new value with the new expiry whatever was
    stored before, every other key is as it was, and the map has one entry
    more when [k] was absent and as many as before when it was present. *)
Theorem X1_Set_overwrites_one_key (w : World) (k v : string) (maxItems ttl : Z) :
  quiescent w →
  readOnly (heap w) ≠ 1 →
  Z.of_nat (size (items (heap w))) < maxItems →
  ∃ w',
    Set_ k v maxItems ttl w = Ret tt w' ∧
    quiescent w' ∧
    items (heap w') !! k =
      Some (Item v (int64 (clock w (ticks w) + ttl))) ∧
    (∀ k', k' ≠ k → items (heap w') !! k' = items (heap w) !! k') ∧
    size (items (heap w')) =
      match items (heap w) !! k with
      | Some _ => size (items (heap w))
      | None => S (size (items (heap w)))
      end.
Proof.
  intros Hq Hro Hsize. rewrite (Set_below_capacity _ _ _ _ _ Hq Hro Hsize).
  eexists. split; [reflexivity|]. simpl.
  split; [by open_world w|].
  split; [apply lookup_insert_eq|].
  split; [intros k' Hne; by apply lookup_insert_ne|].
  rewrite map_size_insert. by destruct (items (heap w) !! k).
Qed.

Lemma X1_witness :
  quiescent stocked ∧ readOnly (heap stocked) ≠ 1 ∧
  ∃ w',
    Set_ "b" "9" 10 50 stocked = Ret tt w' ∧
    quiescent w' ∧
    items (heap w') !! "b"%string =
      Some (Item "9" (int64 (clock stocked (ticks stocked) + 50))) ∧
    (∀ k', k' ≠ "b"%string →
           items (heap w') !! k' = items (heap stocked) !! k') ∧
    size (items (heap w')) =
      match items (heap stocked) !! "b"%string with
      | Some _ => size (items (heap stocked))
      | None => S (size (items (heap stocked)))
      end.
Proof.
  split; [reflexivity|]. split; [discriminate|].
  apply (X1_Set_overwrites_one_key stocked "b" "9" 10 50);
    [reflexivity | discriminate | evaluate].
Defined.

(** X2 ([delete] removes one key and is silent about a missing one).  On a
    cache whose mutex is free, [delete(k)] returns with the mutex free, [k]
    absent and every other key as before; when [k] was absent the world is
    exactly as before; and deleting twice is the same as deleting once. *)
Theorem X2_delete_removes_one_key (w : World) (k : string) :
  quiescent w →
  ∃ w',
    delete k w = Ret tt w' ∧
    quiescent w' ∧
    items (heap w') !! k = None ∧
    (∀ k', k' ≠ k → items (heap w') !! k' = items (heap w) !! k') ∧
    (items (heap w) !! k = None → w' = w) ∧
    delete k w' = Ret tt w'.
Proof.
  intros Hq. rewrite (delete_run _ _ Hq).
  eexists. split; [reflexivity|].
  split; [by open_world w|]. simpl.
  split; [apply lookup_delete_eq|].
  split; [intros k' Hne; by apply lookup_delete_ne|].
  split.
  - intros Hk. rewrite (delete_id _ _ Hk). by open_world w.
  - rewrite delete_run by (by open_world w). simpl.
    by rewrite delete_delete_eq.
Qed.

Lemma X2_witness :
  quiescent stocked ∧
  ∃ w',
    delete "a" stocked = Ret tt w' ∧
    quiescent w' ∧
    items (heap w') !! "a"%string = None ∧
    (∀ k', k' ≠ "a"%string →
           items (heap w') !! k' = items (heap stocked) !! k') ∧
    (items (heap stocked) !! "a"%string = None → w' = stocked) ∧
    delete "a" w' = Ret tt w'.
Proof.
  split; [reflexivity|].
  apply (X2_delete_removes_one_key stocked "a"). reflexivity.
Defined.

(** X3 (insert then delete is a round trip).  When [k] is absent, an
    unfrozen [Set] of [k] below capacity followed by [delete(k)] returns and
    leaves the cache object as it was before the two calls. *)
Theorem X3_Set_then_delete_restores (w : World) (k v : string) (maxItems ttl : Z) :
  quiescent w →
  readOnly (heap w) ≠ 1 →
  Z.of_nat (size (items (heap w))) < maxItems →
  items (heap w) !! k = None →
  ∃ w', (Set_ k v maxItems ttl;; delete k) w = Ret tt w' ∧ heap w' = heap w.
Proof.
  intros Hq Hro Hsize Hk.
  erewrite bind_Ret by (by apply Set_below_capacity).
  rewrite delete_run by (by open_world w).
  eexists. split; [reflexivity|]. simpl.
  rewrite (delete_insert_id _ _ _ Hk). by open_world w.
Qed.

Lemma X3_witness :
  ∃ w', (Set_ "z" "9" 10 50;; delete "z") stocked = Ret tt w' ∧
        heap w' = heap stocked.
Proof.
  apply (X3_Set_then_delete_restores stocked "z" "9" 10 50);
    [reflexivity | discriminate | evaluate | evaluate].
Defined.

(** ** Sequences of calls *)

(** What one call does from a world whose mutex is free: it returns with the
    mutex free and the map no larger, or larger by one after a [Set] below
    capacity; or it is a [Set] on an unfrozen cache at capacity, blocked with
    the write lock held. *)
Lemma exec_outcome c w :
  quiescent w →
  (∃ w', exec c w = Ret tt w' ∧ quiescent w' ∧
         ((size (items (heap w')) ≤ size (items (heap w)))%nat ∨
          ∃ k v m ttl, c = CallSet k v m ttl ∧
                       Z.of_nat (size (items (heap w))) < m ∧
                       (size (items (heap w')) ≤ S (size (items (heap w))))%nat)) ∨
  (∃ k v m ttl w', c = CallSet k v m ttl ∧
                   readOnly (heap w) ≠ 1 ∧
                   m <= Z.of_nat (size (items (heap w))) ∧
                   exec c w = Blocked w' ∧
                   mu (heap w') = Mutex true 0).
Proof.
  intros Hq.
  assert (no_writer w) as Hw by (unfold no_writer; by rewrite Hq).
  destruct c as [k v m ttl|k|k|k|]; simpl.
  - destruct (decide (readOnly (heap w) = 1)) as [Hro|Hro].
    { left. exists w. rewrite (Set_frozen _ _ _ _ _ Hro). auto. }
    destruct (Z_lt_le_dec (Z.of_nat (size (items (heap w)))) m) as [Hlt|Hle].
    + left. rewrite (Set_below_capacity _ _ _ _ _ Hq Hro Hlt).
      eexists. split; [reflexivity|]. split; [by open_world w|].
      right. exists k, v, m, ttl. split; [done|]. split; [done|]. simpl.
      rewrite map_size_insert. destruct (items (heap w) !! k); simpl; lia.
    + right. rewrite (Set_at_capacity _ _ _ _ _ Hq Hro Hle).
      exists k, v, m, ttl. eexists. by repeat split.
  - left. destruct (items (heap w) !! k) as [it|] eqn:Hk.
    + rewrite (bind_Ret _ _ _ _ _ (Get_present _ _ _ Hw Hk)).
      eexists. split; [reflexivity|]. simpl. auto.
    + rewrite (bind_Ret _ _ _ _ _ (Get_absent _ _ Hw Hk)).
      eexists. split; [reflexivity|]. auto.
  - left. destruct (items (heap w) !! k) as [it|] eqn:Hk.
    + destruct (Z_lt_le_dec (expiry it) (clock w (ticks w))) as [Hlt|Hle].
      * rewrite (bind_Ret _ _ _ _ _ (GetOrDelete_expired _ _ _ Hq Hk Hlt)).
        eexists. split; [reflexivity|]. simpl. split; [by open_world w|].
        left. apply map_subseteq_size, delete_subseteq.
      * rewrite (bind_Ret _ _ _ _ _ (GetOrDelete_live _ _ _ Hw Hk Hle)).
        eexists. split; [reflexivity|]. simpl. auto.
    + rewrite (bind_Ret _ _ _ _ _ (GetOrDelete_absent _ _ Hw Hk)).
      eexists. split; [reflexivity|]. auto.
  - left. rewrite SaveAndExit_run. eexists. split; [reflexivity|].
    split; [by open_world w|]. by left.
  - left. rewrite (cleanup_run _ Hq). eexists. split; [reflexivity|].
    split; [by open_world w|]. left. simpl.
    apply map_subseteq_size, delete_all_subseteq.
Qed.

Lemma run_quiescent cs w w' :
  quiescent w → run cs w = Ret tt w' → quiescent w'.
Proof.
  revert w. induction cs as [|c cs IH]; intros w Hq Hrun.
  - by injection Hrun as <-.
  - simpl in Hrun. apply bind_inv in Hrun as ([] & w1 & Hc & Hcs).
    destruct (exec_outcome c w Hq) as [(w1' & Hc' & Hq1 & _)|Hblocked].
    + rewrite Hc in Hc'. injection Hc' as <-. by apply (IH w1).
    + destruct Hblocked as (? & ? & ? & ? & ? & _ & _ & _ & Hb & _).
      by rewrite Hc in Hb.
Qed.

(** X4 (locks are balanced; the one way to get stuck).  A sequential
    client started on a cache whose mutex is free never dies on an unlock of
    an unlocked mutex: either all its calls return, and the mutex is free
    again, or it is blocked for ever in a [Set] with the write lock held. *)
Theorem X4_client_returns_or_deadlocks (cs : list call) (w : World) :
  quiescent w →
  (∃ w', run cs w = Ret tt w' ∧ quiescent w') ∨
  (∃ w', run cs w = Blocked w' ∧ mu (heap w') = Mutex true 0).
Proof.
  revert w. induction cs as [|c cs IH]; intros w Hq.
  - left. by exists w.
  - simpl. destruct (exec_outcome c w Hq) as [(w1 & Hc & Hq1 & _)|Hblocked].
    + rewrite (bind_Ret _ _ _ _ _ Hc). by apply IH.
    + destruct Hblocked as (? & ? & ? & ? & w1 & _ & _ & _ & Hb & Hmu).
      right. exists w1. unfold mbind, M_bind. by rewrite Hb.
Qed.

Lemma X4_witness :
  quiescent stocked ∧
  ((∃ w', run [CallGetOrDelete "a"; CallSet "z" "9" 3 50; CallSet "y" "8" 3 50]
            stocked = Ret tt w' ∧ quiescent w') ∨
   (∃ w', run [CallGetOrDelete "a"; CallSet "z" "9" 3 50; CallSet "y" "8" 3 50]
            stocked = Blocked w' ∧ mu (heap w') = Mutex true 0)).
Proof.
  split; [reflexivity|].
  apply (X4_client_returns_or_deadlocks
           [CallGetOrDelete "a"; CallSet "z" "9" 3 50; CallSet "y" "8" 3 50]
           stocked).
  reflexivity.
Defined.

(** X5 (the map never outgrows the capacity its writers pass).  If every
    [Set] of a client passes a [maxItems] of at most [cap], and the map
    starts with at most [cap] entries, then in every world the client
    returns in the map has at most [cap] entries: a [Set] that would exceed
    the capacity does not return. *)
Theorem X5_size_bounded_by_capacity (cs : list call) (cap : Z) (w w' : World) :
  quiescent w →
  (∀ k v m ttl, CallSet k v m ttl ∈ cs → m <= cap) →
  Z.of_nat (size (items (heap w))) <= cap →
  run cs w = Ret tt w' →
  Z.of_nat (size (items (heap w'))) <= cap.
Proof.
  revert w. induction cs as [|c cs IH]; intros w Hq Hcap Hsize Hrun.
  - by injection Hrun as <-.
  - simpl in Hrun. apply bind_inv in Hrun as ([] & w1 & Hc & Hcs).
    destruct (exec_outcome c w Hq) as [(w1' & Hc' & Hq1 & Hgrow)|Hblocked].
    + rewrite Hc in Hc'. injection Hc' as <-.
      apply (IH w1); [done | | | done].
      * intros k v m ttl Hin. apply (Hcap k v m ttl). by right.
      * destruct Hgrow as [Hle|(k & v & m & ttl & -> & Hlt & Hle)]; [lia|].
        specialize (Hcap k v m ttl ltac:(by left)). lia.
    + destruct Hblocked as (? & ? & ? & ? & ? & _ & _ & _ & Hb & _).
      by rewrite Hc in Hb.
Qed.

Lemma X5_witness :
  ∃ w',
    run [CallSet "a" "1" 3 50; CallSet "b" "2" 3 50; CallSet "a" "3" 3 50]
      (fresh 100 20) = Ret tt w' ∧
    Z.of_nat (size (items (heap w'))) <= 3.
Proof.
  eexists. split; [evaluate|].
  eapply (X5_size_bounded_by_capacity
            [CallSet "a" "1" 3 50; CallSet "b" "2" 3 50; CallSet "a" "3" 3 50]
            3 (fresh 100 20)).
  - reflexivity.
  - intros k v m ttl Hin.
    repeat (apply elem_of_cons in Hin as [[= _ _ <- _]|Hin]; [done|]).
    by apply elem_of_nil in Hin.
  - by compute.
  - evaluate.
Defined.

(** X6 (the deadlock takes the whole cache with it).  On an unfrozen cache
    whose mutex is free and whose map holds at least [maxItems] entries,
    expired or not, [Set] blocks with the write lock held and the map
    untouched; from then on every [Get], [GetOrDelete], [delete], [cleanup]
    and unfrozen [Set] of any goroutine blocks as well. *)
Theorem X6_deadlock_poisons_cache (w : World) (k v : string) (maxItems ttl : Z) :
  quiescent w →
  readOnly (heap w) ≠ 1 →
  maxItems <= Z.of_nat (size (items (heap w))) →
  ∃ w',
    Set_ k v maxItems ttl w = Blocked w' ∧
    heap w' = with_mu (heap w) (Mutex true 0) ∧
    ∀ k',
      Get k' w' = Blocked w' ∧
      GetOrDelete k' w' = Blocked w' ∧
      delete k' w' = Blocked w' ∧
      (∀ v' m' t', Set_ k' v' m' t' w' = Blocked w') ∧
      ∃ w'', cleanup w' = Blocked w''.
Proof.
  intros Hq Hro Hsize. rewrite (Set_at_capacity _ _ _ _ _ Hq Hro Hsize).
  eexists. split; [reflexivity|]. split; [reflexivity|].
  intros k'. open_world w.
  split; [reflexivity|]. split; [reflexivity|]. split; [reflexivity|].
  split; [| by eexists].
  intros v' m' t'. unfold Set_. run_prims.
  by destruct (Z.eqb_spec ro 1).
Qed.

Lemma X6_witness :
  ∃ w',
    Set_ "z" "9" 3 50 stocked = Blocked w' ∧
    heap w' = with_mu (heap stocked) (Mutex true 0) ∧
    ∀ k',
      Get k' w' = Blocked w' ∧
      GetOrDelete k' w' = Blocked w' ∧
      delete k' w' = Blocked w' ∧
      (∀ v' m' t', Set_ k' v' m' t' w' = Blocked w') ∧
      ∃ w'', cleanup w' = Blocked w''.
Proof.
  apply (X6_deadlock_poisons_cache stocked "z" "9" 3 50);
    [reflexivity | discriminate | by vm_compute].
Defined.

(** X7 (when a [Set] is dropped).  In a world a client has reached from a
    fresh cache, a [Set] is dropped (it returns and the world is exactly as
    before) if and only if the number of [SaveAndExit] calls made so far,
    wrapped to 32 bits, is 1. *)
Theorem X7_Set_dropped_iff_counter_is_one
    clk ord t hist ed (cs : list call) (w : World) k v maxItems ttl :
  run cs (MkWorld clk ord t hist (NewCache ed)) = Ret tt w →
  Set_ k v maxItems ttl w = Ret tt w ↔ int32 (Z.of_nat (freezes cs)) = 1.
Proof.
  intros Hrun.
  assert (quiescent w) as Hq.
  { apply (run_quiescent cs (MkWorld clk ord t hist (NewCache ed)));
      [reflexivity | exact Hrun]. }
  rewrite <- (freezes_flag _ _ _ _ _ _ _ Hrun). split.
  - intros Hset.
    destruct (decide (readOnly (heap w) = 1)) as [|Hro]; [done|]. exfalso.
    destruct (Z_lt_le_dec (Z.of_nat (size (items (heap w)))) maxItems)
      as [Hlt|Hle].
    + rewrite (Set_below_capacity _ _ _ _ _ Hq Hro Hlt) in Hset.
      injection Hset as Hset. apply (f_equal ticks) in Hset. simpl in Hset. lia.
    + by rewrite (Set_at_capacity _ _ _ _ _ Hq Hro Hle) in Hset.
  - apply Set_frozen.
Qed.

Lemma X7_witness :
  ∃ w,
    run [CallSaveAndExit "x"; CallGet "a"] (fresh 100 20) = Ret tt w ∧
    (Set_ "a" "1" 10 50 w = Ret tt w ↔
     int32 (Z.of_nat (freezes [CallSaveAndExit "x"; CallGet "a"])) = 1).
Proof.
  eexists. split; [evaluate|].
  apply (X7_Set_dropped_iff_counter_is_one (λ _, 100) map_to_list 0%nat [] 20
           [CallSaveAndExit "x"; CallGet "a"]).
  evaluate.
Defined.

(** ** More on the sweep *)

(** A sweep whose clock readings stay at or below every expiry collects
    nothing and leaves the cache object as it was. *)
Lemma cleanup_nothing_expired (w : World) (hi : Z) :
  quiescent w →
  range_valid w →
  (∀ i, (i < size (items (heap w)))%nat → clock w (ticks w + i)%nat <= hi) →
  (∀ k it, items (heap w) !! k = Some it → hi <= expiry it) →
  heap (swept w) = heap w.
Proof.
  intros Hq Hr Hclk Hlive. unfold swept.
  assert (collected (clock w) (ticks w) (range_order w (items (heap w))) = [])
    as ->.
  { apply elem_of_nil_inv. intros k (i & it & Hi & Hlt)%elem_of_collected.
    pose proof (lookup_lt_Some _ _ _ Hi) as Hlen.
    rewrite (range_length w _ Hr) in Hlen.
    apply list_elem_of_lookup_2, (range_elem w _ _ _ Hr) in Hi.
    specialize (Hclk i Hlen). specialize (Hlive k it Hi). lia. }
  by open_world w.
Qed.

(** X8 (sweeping twice is sweeping once).  With the clock standing still,
    a second [cleanup] right after a first one returns and leaves the cache
    object exactly as the first one left it. *)
Theorem X8_cleanup_idempotent (w : World) (now : Z) :
  quiescent w →
  range_valid w →
  (∀ i, clock w i = now) →
  ∃ w1 w2,
    cleanup w = Ret tt w1 ∧
    cleanup w1 = Ret tt w2 ∧
    heap w2 = heap w1.
Proof.
  intros Hq Hr Hclk.
  assert (quiescent (swept w)) as Hq1 by (by open_world w).
  exists (swept w), (swept (swept w)).
  split; [by apply cleanup_run|]. split; [by apply cleanup_run|].
  apply (cleanup_nothing_expired (swept w) now); [done | done | |].
  - intros i _. simpl. by rewrite Hclk.
  - intros k it. simpl. rewrite lookup_delete_all.
    destruct (decide _) as [|Hnin]; [done|]. intros Hk.
    destruct (collected_bounds w now now k it Hr) as [Hin _]; [| done |].
    { intros i _. rewrite Hclk. lia. }
    destruct (Z_lt_le_dec (expiry it) now) as [Hlt|]; [|done].
    destruct Hnin. by apply Hin.
Qed.

Lemma X8_witness :
  quiescent stocked ∧
  ∃ w1 w2,
    cleanup stocked = Ret tt w1 ∧
    cleanup w1 = Ret tt w2 ∧
    heap w2 = heap w1.
Proof.
  split; [reflexivity|].
  apply (X8_cleanup_idempotent stocked 100);
    [reflexivity | intros m; reflexivity | intros i; reflexivity].
Defined.

(** X9 (a sweep empties a cache of expired entries).  When every entry has
    an expiry below all the clock readings of the scan, [cleanup] returns
    with an empty map. *)
Theorem X9_cleanup_all_expired_empties (w : World) (lo : Z) :
  quiescent w →
  range_valid w →
  (∀ i, (i < size (items (heap w)))%nat → lo <= clock w (ticks w + i)%nat) →
  (∀ k it, items (heap w) !! k = Some it → expiry it < lo) →
  ∃ w', cleanup w = Ret tt w' ∧ items (heap w') = ∅.
Proof.
  intros Hq Hr Hclk Hdead. exists (swept w).
  split; [by apply cleanup_run|].
  apply map_eq. intros k. simpl. rewrite lookup_delete_all, lookup_empty.
  destruct (decide _) as [|Hnin]; [done|].
  destruct (items (heap w) !! k) as [it|] eqn:Hk; [|done].
  destruct Hnin. apply elem_of_collected.
  apply (range_elem w _ _ _ Hr) in Hk as Hin.
  apply list_elem_of_lookup_1 in Hin as [i Hi].
  exists i, it. split; [done|].
  pose proof (lookup_lt_Some _ _ _ Hi) as Hlen.
  rewrite (range_length w _ Hr) in Hlen.
  specialize (Hclk i Hlen). specialize (Hdead k it Hk). lia.
Qed.

Lemma X9_witness :
  let w := MkWorld (λ _, 200) map_to_list 0 [] (heap stocked) in
  ∃ w', cleanup w = Ret tt w' ∧ items (heap w') = ∅.
Proof.
  intros w. apply (X9_cleanup_all_expired_empties w 200).
  - reflexivity.
  - intros m. reflexivity.
  - intros i _. simpl. lia.
  - intros k it Hk. unfold w, stocked in Hk. simpl in Hk.
    apply lookup_insert_Some in Hk as [[_ <-]|[_ Hk]]; [by compute|].
    apply lookup_insert_Some in Hk as [[_ <-]|[_ Hk]]; [by compute|].
    apply lookup_insert_Some in Hk as [[_ <-]|[_ Hk]]; [by compute|].
    by rewrite lookup_empty in Hk.
Defined.

(** ** Lookups, again *)

(** X10 ([Get] never writes).  Whatever the state of the mutex and whatever
    the outcome, the world [Get] stops in has the same cache object and the
    same history as the world it started from, and the clock was read at
    most once. *)
Theorem X10_Get_never_mutates (k : string) :
  stable (λ w w', heap w' = heap w ∧ history w' = history w ∧
                  clock w' = clock w ∧ range_order w' = range_order w ∧
                  (ticks w ≤ ticks w' ≤ S (ticks w))%nat)
         (Get k).
Proof.
  intros w. open_world w. unfold Get. run_prims.
  destruct wr; run_prims; [repeat split; lia|].
  destruct (its !! k) as [it|]; run_prims; [|repeat split; lia].
  destruct (clk t >? expiry it); run_prims; repeat split; lia.
Qed.

(** X11 ([GetOrDelete] answers as [Get] does).  On a cache whose mutex is
    free both calls return the same pair.  On a hit they also stop in the
    same world; on a miss the world of [GetOrDelete] is the world of [Get]
    with the key removed from the map, which is the same world when the key
    was absent. *)
Theorem X11_GetOrDelete_agrees_with_Get (w : World) (k : string) :
  quiescent w →
  ∃ r w1 w2,
    Get k w = Ret r w1 ∧
    GetOrDelete k w = Ret r w2 ∧
    (r.2 = true → w2 = w1) ∧
    (r.2 = false →
     w2 = with_heap w1 (with_items (heap w1)
                          (base.delete k (items (heap w1))))) ∧
    (items (heap w) !! k = None → w2 = w ∧ w1 = w).
Proof.
  intros Hq.
  assert (no_writer w) as Hw by (unfold no_writer; by rewrite Hq).
  destruct (items (heap w) !! k) as [it|] eqn:Hk.
  - rewrite (Get_present _ _ _ Hw Hk).
    destruct (Z.gtb_spec (clock w (ticks w)) (expiry it)) as [Hgt|Hle].
    + rewrite (GetOrDelete_expired _ _ _ Hq Hk) by lia.
      do 3 eexists. split; [reflexivity|]. split; [reflexivity|]. simpl.
      by repeat split.
    + rewrite (GetOrDelete_live _ _ _ Hw Hk Hle).
      do 3 eexists. split; [reflexivity|]. split; [reflexivity|]. simpl.
      by repeat split.
  - rewrite (Get_absent _ _ Hw Hk), (GetOrDelete_absent _ _ Hw Hk).
    exists (""%string, false), w, w.
    split; [reflexivity|]. split; [reflexivity|]. simpl.
    split; [done|]. split; [|done].
    intros _. rewrite (delete_id _ _ Hk). by open_world w.
Qed.

Lemma X11_witness :
  quiescent stocked ∧
  ∃ r w1 w2,
    Get "a" stocked = Ret r w1 ∧
    GetOrDelete "a" stocked = Ret r w2 ∧
    (r.2 = true → w2 = w1) ∧
    (r.2 = false →
     w2 = with_heap w1 (with_items (heap w1)
                          (base.delete "a" (items (heap w1))))) ∧
    (items (heap stocked) !! "a"%string = None → w2 = stocked ∧ w1 = stocked).
Proof.
  split; [reflexivity|].
  apply (X11_GetOrDelete_agrees_with_Get stocked "a"). reflexivity.
Defined.

(** ** The two versions of the file *)

(** X12 (the new [Set] extends the old one).  On a cache that is frozen or
    below capacity, [Set(k, v, maxItems, c.defaultExpiry)] of [main.go] does
    exactly what [Set(k, v)] of the earlier variant does, whatever the state
    of the mutex. *)
Theorem X12_Set_matches_earlier_Set (w : World) (k v : string) (maxItems : Z) :
  readOnly (heap w) = 1 ∨ Z.of_nat (size (items (heap w))) < maxItems →
  Set_ k v maxItems (defaultExpiry (heap w)) w = Part000.Set_ k v w.
Proof.
  intros Hcase. open_world w. unfold Set_, Part000.Set_. run_prims.
  destruct (Z.eqb_spec ro 1) as [|Hro]; [done|].
  destruct Hcase as [|Hlt]; [done|]. run_prims.
  destruct wr, rd; run_prims; try done.
  destruct (Z.geb_spec (Z.of_nat (size its)) maxItems) as [|_]; [lia|].
  reflexivity.
Qed.

Lemma X12_witness :
  Set_ "z" "9" 10 (defaultExpiry (heap stocked)) stocked =
  Part000.Set_ "z" "9" stocked.
Proof.
  apply (X12_Set_matches_earlier_Set stocked "z" "9" 10). right. evaluate.
Defined.

(** X13 (the janitor does not look at [maxItems]).  For every fuel, every
    argument and every world, [janitor(maxItems)] of [main.go] has the
    outcome of the parameterless [janitor()] of the earlier variant; in
    particular two arguments give the same run. *)
Theorem X13_janitor_ignores_maxItems (fuel : nat) (maxItems : Z) (w : World) :
  janitor fuel maxItems w = Part000.janitor fuel w.
Proof.
  revert w. induction fuel as [|fuel IH]; intros w; [done|].
  cbn [janitor Part000.janitor]. unfold mbind, M_bind.
  destruct (load_defaultExpiry w) as [d w1| | |]; try done.
  destruct (time_After (int64 (d * 2)) w1) as [[] w2| | |]; try done.
  destruct (cleanup w2) as [[] w3| | |]; try done.
Qed.

(** ** Edges *)

Lemma int64_overflow x : 2 ^ 63 <= x < 2 ^ 64 + 2 ^ 63 → int64 x = x - 2 ^ 64.
Proof.
  intros Hx. unfold int64, wrap.
  replace (x + 2 ^ (64 - 1)) with (x - 2 ^ 63 + 1 * 2 ^ 64) by lia.
  rewrite Z_mod_plus_full, Z.mod_small; lia.
Qed.

(** X14 (a time to live that overflows the timestamp).  When the clock
    reading and the ttl are int64 values whose sum is [2^63] or more, an
    unfrozen [Set] below capacity stores the sum wrapped around, a negative
    expiry; the entry is in the map, and every [Get] of it at a non-negative
    clock reading reports a miss. *)
Theorem X14_overflowing_ttl_expires_at_once
    (w : World) (k v : string) (maxItems ttl : Z) :
  quiescent w →
  readOnly (heap w) ≠ 1 →
  Z.of_nat (size (items (heap w))) < maxItems →
  in_int64 (clock w (ticks w)) →
  in_int64 ttl →
  2 ^ 63 <= clock w (ticks w) + ttl →
  ∃ w1,
    Set_ k v maxItems ttl w = Ret tt w1 ∧
    items (heap w1) !! k =
      Some (Item v (clock w (ticks w) + ttl - 2 ^ 64)) ∧
    ∀ w2,
      no_writer w2 →
      items (heap w2) !! k = items (heap w1) !! k →
      0 <= clock w2 (ticks w2) →
      ∃ w3, Get k w2 = Ret (""%string, false) w3.
Proof.
  intros Hq Hro Hsize Hnow Httl Hover. unfold in_int64 in *.
  rewrite (Set_below_capacity _ _ _ _ _ Hq Hro Hsize).
  rewrite int64_overflow by lia.
  eexists. split; [reflexivity|]. simpl.
  split; [apply lookup_insert_eq|].
  intros w2 Hw2 Hk Hpos. rewrite lookup_insert_eq in Hk.
  rewrite (Get_present _ _ _ Hw2 Hk). simpl.
  destruct (Z.gtb_spec (clock w2 (ticks w2)) (clock w (ticks w) + ttl - 2 ^ 64));
    [by eexists | lia].
Qed.

Lemma X14_witness :
  ∃ w1,
    Set_ "a" "1" 10 (2 ^ 63 - 1) (fresh 100 20) = Ret tt w1 ∧
    items (heap w1) !! "a"%string =
      Some (Item "1" (100 + (2 ^ 63 - 1) - 2 ^ 64)) ∧
    ∀ w2,
      no_writer w2 →
      items (heap w2) !! "a"%string = items (heap w1) !! "a"%string →
      0 <= clock w2 (ticks w2) →
      ∃ w3, Get "a" w2 = Ret (""%string, false) w3.
Proof.
  apply (X14_overflowing_ttl_expires_at_once (fresh 100 20) "a" "1" 10
           (2 ^ 63 - 1));
    [reflexivity | discriminate | evaluate | by vm_compute | by vm_compute
    | by vm_compute].
Defined.

(** X15 (a new cache).  [NewCacheWithJanitor] builds the object [NewCache]
    builds.  On it every key is a miss, for [Get] and for [GetOrDelete], and
    the world is left as it was; and a first [Set] returns if and only if
    [maxItems] is at least 1: with [maxItems <= 0] even an empty cache is at
    capacity. *)
Theorem X15_new_cache clk ord t hist (ed maxItems0 : Z) (k v : string)
    (maxItems ttl : Z) :
  let w := MkWorld clk ord t hist (NewCacheWithJanitor ed maxItems0) in
  NewCacheWithJanitor ed maxItems0 = NewCache ed ∧
  Part000.NewCacheWithJanitor ed = NewCache ed ∧
  Get k w = Ret (""%string, false) w ∧
  GetOrDelete k w = Ret (""%string, false) w ∧
  ((∃ w', Set_ k v maxItems ttl w = Ret tt w') ↔ 1 <= maxItems).
Proof.
  intros w. split; [done|]. split; [done|].
  split; [by apply Get_absent|]. split; [by apply GetOrDelete_absent|].
  destruct (Z_lt_le_dec 0 maxItems) as [Hpos|Hneg].
  - rewrite (Set_below_capacity k v maxItems ttl w); [| done | done |].
    + split; [lia | by eexists].
    + simpl. rewrite map_size_empty. lia.
  - rewrite (Set_at_capacity k v maxItems ttl w); [| done | done |].
    + split; [by intros [w' ?] | lia].
    + simpl. rewrite map_size_empty. lia.
Qed.

(** ** Freezing and reclamation *)

(** X16 (freezing stops [Set] and nothing else).  On a cache whose mutex is
    free, [Get], [GetOrDelete], [delete] and [cleanup] do on the cache with
    its counter set to 1 what they do on the cache itself: same result, and
    the same world up to the counter.  A frozen cache still loses the
    entries these calls remove. *)
Theorem X16_freeze_does_not_stop_reclamation (w : World) (k : string) :
  quiescent w →
  let freeze := λ w, with_heap w (with_readOnly (heap w) 1) in
  (∃ r w1, Get k w = Ret r w1 ∧ Get k (freeze w) = Ret r (freeze w1)) ∧
  (∃ r w1, GetOrDelete k w = Ret r w1 ∧
           GetOrDelete k (freeze w) = Ret r (freeze w1)) ∧
  (∃ w1, delete k w = Ret tt w1 ∧ delete k (freeze w) = Ret tt (freeze w1)) ∧
  (∃ w1, cleanup w = Ret tt w1 ∧ cleanup (freeze w) = Ret tt (freeze w1)).
Proof.
  intros Hq freeze.
  assert (quiescent (freeze w)) as Hqf by (by open_world w).
  split; [|split; [|split]].
  - open_world w. unfold Get. run_prims.
    destruct (its !! k) as [it|]; run_prims; [|by do 2 eexists].
    destruct (clk t >? expiry it); run_prims; by do 2 eexists.
  - open_world w. unfold GetOrDelete. run_prims.
    destruct (its !! k) as [it|]; run_prims; [|by do 2 eexists].
    destruct (clk t >? expiry it); run_prims; by do 2 eexists.
  - rewrite !delete_run by done. eexists. split; [reflexivity|].
    by open_world w.
  - rewrite !cleanup_run by done. eexists. split; [reflexivity|].
    by open_world w.
Qed.

Lemma X16_witness :
  quiescent stocked ∧
  let freeze := λ w, with_heap w (with_readOnly (heap w) 1) in
  (∃ r w1, Get "a" stocked = Ret r w1 ∧
           Get "a" (freeze stocked) = Ret r (freeze w1)) ∧
  (∃ r w1, GetOrDelete "a" stocked = Ret r w1 ∧
           GetOrDelete "a" (freeze stocked) = Ret r (freeze w1)) ∧
  (∃ w1, delete "a" stocked = Ret tt w1 ∧
         delete "a" (freeze stocked) = Ret tt (freeze w1)) ∧
  (∃ w1, cleanup stocked = Ret tt w1 ∧
         cleanup (freeze stocked) = Ret tt (freeze w1)).
Proof.
  split; [reflexivity|].
  apply (X16_freeze_does_not_stop_reclamation stocked "a"). reflexivity.
Defined.
